(** * flask_executor.futures: the FutureCollection registry

    A shallow embedding of [src/flask_executor/futures.py].

    - The [OrderedDict] held in [self._futures] is an association list in
      insertion order (oldest entry first); its keys are pairwise distinct,
      which is the predicate [od_wf], established by the constructor and
      kept by every method.
    - [max_length] is [None] or a Python integer: [option Z].
    - A method that can raise returns an [outcome] next to the collection
      it leaves behind, since Python keeps the mutations made before the
      exception.
    - Futures are objects of [concurrent.futures], outside this file: they
      are an abstract type compared by identity, and what [getattr] finds
      on one of them is read from an abstract external [world], which a
      proxied call may change. *)

From stdpp Require Import base numbers list strings.

Open Scope Z_scope.

(** ** Python values and exceptions *)

(** The values that a proxied attribute or call hands back. *)
Inductive pyval : Type :=
  | PyNone
  | PyBool (b : bool)
  | PyInt (z : Z)
  | PyStr (s : string)
  | PyObj (id : nat).

(** The exceptions met in this module: [ValueError] of [add] (its message
    is formatted from the key), [KeyError] of [popitem] on an empty
    dictionary, [AttributeError] of [getattr], and whatever a proxied call
    raises itself. *)
Inductive pyexn (K : Type) : Type :=
  | ValueError (future_key : K)
  | KeyError
  | AttributeError (attr : string)
  | OtherError (name : string).
Arguments ValueError {K} future_key.
Arguments KeyError {K}.
Arguments AttributeError {K} attr.
Arguments OtherError {K} name.

Inductive outcome (K A : Type) : Type :=
  | Return (a : A)
  | Raise (e : pyexn K).
Arguments Return {K A} a.
Arguments Raise {K A} e.

(** What [getattr(future, attr)] resolves to when it does not raise:
    something for which [callable] answers true, taking positional and
    keyword arguments and running in the external world, or a plain value. *)
Inductive member (K world : Type) : Type :=
  | Callable (f : list pyval → list (string * pyval) → world → outcome K pyval * world)
  | Plain (v : pyval).
Arguments Callable {K world} f.
Arguments Plain {K world} v.

(** ** OrderedDict *)

Section OrderedDict.
Context {K V : Type} `{EqDecision K}.

Definition odict : Type := list (K * V).

(** [d.get(k)], with [None] for a missing key. *)
Fixpoint od_get (k : K) (d : odict) : option V :=
  match d with
  | [] => None
  | (k', v) :: t => if decide (k = k') then Some v else od_get k t
  end.

(** [k in d] *)
Definition od_mem (k : K) (d : odict) : bool :=
  match od_get k d with Some _ => true | None => false end.

(** [d[k] = v]: a new key goes to the end, an existing key keeps its
    place. *)
Fixpoint od_setitem (k : K) (v : V) (d : odict) : odict :=
  match d with
  | [] => [(k, v)]
  | (k', v') :: t =>
      if decide (k = k') then (k', v) :: t else (k', v') :: od_setitem k v t
  end.

(** Removal of the entry of [k]. *)
Fixpoint od_delete (k : K) (d : odict) : odict :=
  match d with
  | [] => []
  | (k', v) :: t => if decide (k = k') then t else (k', v) :: od_delete k t
  end.

(** [d.pop(k, None)] *)
Definition od_pop (k : K) (d : odict) : option V * odict :=
  match od_get k d with
  | Some v => (Some v, od_delete k d)
  | None => (None, d)
  end.

(** [d.values()] and the keys, in insertion order. *)
Definition od_values (d : odict) : list V := d.*2.
Definition od_keys (d : odict) : list K := d.*1.

(** The keys of a dictionary are pairwise distinct. *)
Definition od_wf (d : odict) : Prop := NoDup (od_keys d).
End OrderedDict.
Arguments odict K V : clear implicits.

(** ** FutureCollection *)

Section FutureCollection.
Context {K future world : Type} `{EqDecision K} `{EqDecision future}.

(** [getattr(future, attr)] in the current world; [None] stands for its
    [AttributeError]. *)
Variable getattr : world → future → string → option (member K world).

Record FutureCollection : Type := mkFC {
  max_length : option Z;
  _futures : odict K future
}.

(** [__init__]; the default of [max_length] is 50. *)
Definition __init__ (max_length : option Z) : FutureCollection :=
  mkFC max_length [].

Definition default_max_length : option Z := Some 50.

(** [__contains__]: [future in self._futures.values()] *)
Definition __contains__ (self : FutureCollection) (f : future) : bool :=
  bool_decide (f ∈ od_values (_futures self)).

(** [__len__] *)
Definition __len__ (self : FutureCollection) : Z :=
  Z.of_nat (length (_futures self)).

(** [__getattr__(attr)] returns the closure [_future_attr]; this is the
    closure applied to [future_key], [*args] and [**kwargs]. It reads
    the collection and does not change it. *)
Definition __getattr__ (self : FutureCollection) (attr : string)
    (future_key : K) (args : list pyval) (kwargs : list (string * pyval))
    (w : world) : outcome K pyval * world :=
  if negb (od_mem future_key (_futures self)) then (Return PyNone, w)
  else
    match od_get future_key (_futures self) with
    | None => (Raise KeyError, w)
    | Some fut =>
        match getattr w fut attr with
        | None => (Raise (AttributeError attr), w)
        | Some (Callable future_attr) => future_attr args kwargs w
        | Some (Plain future_attr) => (Return future_attr, w)
        end
    end.

(** The [while] loop of [_check_size_limit]. [popitem(last=False)]
    removes the first entry, and raises [KeyError] on an empty
    dictionary; every turn shortens the dictionary, so the recursion is
    on it. *)
Fixpoint evict_while (limit : Z) (d : odict K future)
    : outcome K unit * odict K future :=
  if Z.of_nat (length d) >? limit then
    match d with
    | [] => (Raise KeyError, [])
    | _ :: t => evict_while limit t
    end
  else (Return (), d).

(** [_check_size_limit] *)
Definition _check_size_limit (self : FutureCollection)
    : outcome K unit * FutureCollection :=
  match max_length self with
  | Some limit =>
      let '(r, d) := evict_while limit (_futures self) in
      (r, mkFC (max_length self) d)
  | None => (Return (), self)
  end.

(** [add] *)
Definition add (future_key : K) (f : future) (self : FutureCollection)
    : outcome K unit * FutureCollection :=
  if od_mem future_key (_futures self) then
    (Raise (ValueError future_key), self)
  else
    _check_size_limit
      (mkFC (max_length self) (od_setitem future_key f (_futures self))).

(** [pop]; the [None] it returns for a missing key is [None] here. *)
Definition pop (future_key : K) (self : FutureCollection)
    : option future * FutureCollection :=
  let '(r, d) := od_pop future_key (_futures self) in
  (r, mkFC (max_length self) d).

(** *** Call sequences *)

Inductive call : Type :=
  | CAdd (future_key : K) (f : future)
  | CPop (future_key : K).

(** One call made by a caller that goes on after an exception. *)
Definition step (self : FutureCollection) (c : call) : FutureCollection :=
  match c with
  | CAdd k f => snd (add k f self)
  | CPop k => snd (pop k self)
  end.

Definition run (self : FutureCollection) (cs : list call) : FutureCollection :=
  fold_left step cs self.

Definition is_add (c : call) : Prop :=
  match c with CAdd _ _ => True | CPop _ => False end.

(** The entries of the calls to [add] that returned normally, in call
    order. *)
Fixpoint added_ok (self : FutureCollection) (cs : list call)
    : list (K * future) :=
  match cs with
  | [] => []
  | c :: cs' =>
      match c with
      | CAdd k f =>
          match fst (add k f self) with
          | Return _ => [(k, f)]
          | Raise _ => []
          end
      | CPop _ => []
      end ++ added_ok (step self c) cs'
  end.

(** The last [n] elements of a list. *)
Definition lastn {A : Type} (n : nat) (l : list A) : list A :=
  drop (length l - n)%nat l.

(** *** The retained keys as the specification words them

    "The N most-recently-added keys not yet popped", read from the call
    sequence alone. [spec_unpopped_keys] lists the keys added and not
    popped since, in order of addition; [spec_added_keys] lists every
    key passed to [add]. The sentence can be read as the last N of the
    former, or as those of the last N of the latter that are not popped. *)
Definition spec_unpopped_keys (cs : list call) : list K :=
  fold_left
    (λ log c,
      match c with
      | CAdd k _ => if decide (k ∈ log) then log else log ++ [k]
      | CPop k => filter (λ k', k' ≠ k) log
      end)
    cs [].

Definition spec_added_keys (cs : list call) : list K :=
  omap (λ c, match c with CAdd k _ => Some k | CPop _ => None end) cs.

Definition spec_retained_keys (N : Z) (cs : list call) : list K :=
  lastn (Z.to_nat N) (spec_unpopped_keys cs).

Definition spec_retained_keys_alt (N : Z) (cs : list call) : list K :=
  filter (λ k, k ∈ spec_unpopped_keys cs)
    (lastn (Z.to_nat N) (spec_added_keys cs)).

(** The futures handed back by the calls to [pop] that found their key,
    in call order. *)
Fixpoint popped_ok (self : FutureCollection) (cs : list call) : list future :=
  match cs with
  | [] => []
  | c :: cs' =>
      match c with
      | CAdd _ _ => []
      | CPop k =>
          match fst (pop k self) with
          | Some f => [f]
          | None => []
          end
      end ++ popped_ok (step self c) cs'
  end.

(** One call to [add] for each entry of a list. *)
Definition adds (es : list (K * future)) : list call :=
  map (λ e, CAdd e.1 e.2) es.

End FutureCollection.
Arguments FutureCollection K future : clear implicits.
Arguments call K future : clear implicits.

(** ** An example world

    Futures whose identity is an index into the list of their states; the
    members are those a caller polls on a [concurrent.futures.Future]. It
    serves to evaluate the collection on concrete calls. *)

Module Demo.

Inductive fstate : Type :=
  | Pending
  | Running
  | Cancelled
  | Finished (result : pyval)
  | Failed (name : string).

Definition world : Type := list fstate.

Definition is_done (st : fstate) : bool :=
  match st with Pending | Running => false | _ => true end.

Definition state_name (st : fstate) : string :=
  match st with
  | Pending => "PENDING"
  | Running => "RUNNING"
  | Cancelled => "CANCELLED"
  | Finished _ | Failed _ => "FINISHED"
  end.

Definition cancel (fut : nat) (w : world) : outcome string pyval * world :=
  match w !! fut with
  | Some Pending => (Return (PyBool true), <[fut := Cancelled]> w)
  | Some Cancelled => (Return (PyBool true), w)
  | _ => (Return (PyBool false), w)
  end.

Definition result (st : fstate) : outcome string pyval :=
  match st with
  | Finished v => Return v
  | Failed name => Raise (OtherError name)
  | Cancelled => Raise (OtherError "CancelledError")
  | Pending | Running => Raise (OtherError "TimeoutError")
  end.

Definition getattr (w : world) (fut : nat) (attr : string)
    : option (member string world) :=
  match w !! fut with
  | None => None
  | Some st =>
      if decide (attr = "done") then
        Some (Callable (λ _ _ w', (Return (PyBool (is_done st)), w')))
      else if decide (attr = "cancel") then
        Some (Callable (λ _ _ w', cancel fut w'))
      else if decide (attr = "result") then
        Some (Callable (λ _ _ w', (result st, w')))
      else if decide (attr = "_state") then
        Some (Plain (PyStr (state_name st)))
      else None
  end.

Definition w0 : world := [Pending; Finished (PyInt 42); Failed "ZeroDivisionError"].

Definition fc (max_length : option Z) (d : odict string nat)
    : FutureCollection string nat := mkFC max_length d.

(** Three futures added under three keys. *)
Definition adds3 : list (call string nat) :=
  [CAdd "a" 0%nat; CAdd "b" 1%nat; CAdd "c" 2%nat].

(** Adds with pops in between. *)
Definition adds_pops : list (call string nat) :=
  [CAdd "a" 1%nat; CAdd "b" 2%nat; CAdd "c" 3%nat; CAdd "d" 4%nat;
   CPop "c"; CAdd "e" 5%nat; CPop "e"].

(** One future added under two keys. *)
Definition same_future_twice : list (call string nat) :=
  [CAdd "a" 1%nat; CAdd "b" 1%nat].

End Demo.

(** ** Facts about the dictionary *)

Section OrderedDictFacts.
Context {K V : Type} `{EqDecision K}.
Implicit Types (k : K) (v : V) (d : odict K V).

Lemma od_get_None k d : od_get k d = None ↔ k ∉ od_keys d.
Proof.
  unfold od_keys. induction d as [|[k' v'] t IH]; simpl.
  - split; [intros _; apply not_elem_of_nil | done].
  - rewrite not_elem_of_cons. destruct (decide (k = k')) as [->|Hne].
    + split; [done | by intros [? _]].
    + rewrite IH. tauto.
Qed.

Lemma od_get_Some_elem k v d : od_get k d = Some v → (k, v) ∈ d.
Proof.
  induction d as [|[k' v'] t IH]; simpl; [done|].
  destruct (decide (k = k')) as [->|]; intros Hg.
  - injection Hg as ->. apply elem_of_cons; by left.
  - apply elem_of_cons; right; auto.
Qed.

Lemma od_elem_get k v d : od_wf d → (k, v) ∈ d → od_get k d = Some v.
Proof.
  unfold od_wf, od_keys. induction d as [|[k' v'] t IH]; simpl.
  - intros _ Hin. by apply elem_of_nil in Hin.
  - rewrite NoDup_cons. intros [Hk Ht] Hin.
    apply elem_of_cons in Hin as [Heq|Hin].
    + injection Heq as -> ->. by rewrite decide_True.
    + destruct (decide (k = k')) as [->|]; [|by apply IH].
      exfalso. apply Hk. apply list_elem_of_fmap. by exists (k', v).
Qed.

Lemma od_mem_true k d : od_mem k d = true ↔ is_Some (od_get k d).
Proof.
  unfold od_mem. destruct (od_get k d) as [v|].
  - split; [by eexists | done].
  - split; [done | intros Hm; by destruct Hm].
Qed.

Lemma od_mem_false k d : od_mem k d = false ↔ od_get k d = None.
Proof. unfold od_mem. by destruct (od_get k d). Qed.

Lemma od_setitem_fresh k v d :
  od_get k d = None → od_setitem k v d = d ++ [(k, v)].
Proof.
  induction d as [|[k' v'] t IH]; simpl; [done|].
  destruct (decide (k = k')); [done|]. intros Hg. by rewrite IH.
Qed.

Lemma od_delete_length k v d :
  od_get k d = Some v → length d = S (length (od_delete k d)).
Proof.
  induction d as [|[k' v'] t IH]; simpl; [done|].
  destruct (decide (k = k')); [done|]. intros Hg. simpl. by rewrite <- IH.
Qed.

Lemma od_delete_sublist k d : od_delete k d `sublist_of` d.
Proof.
  induction d as [|[k' v'] t IH]; simpl; [done|].
  destruct (decide (k = k')).
  - by apply sublist_cons.
  - by apply sublist_skip.
Qed.

Lemma od_delete_wf k d : od_wf d → od_wf (od_delete k d).
Proof.
  unfold od_wf, od_keys. intros Hwf.
  eapply sublist_NoDup; [exact Hwf|]. apply fmap_sublist, od_delete_sublist.
Qed.

Lemma od_delete_get_ne k k' d :
  k ≠ k' → od_get k' (od_delete k d) = od_get k' d.
Proof.
  intros Hne. induction d as [|[k0 v0] t IH]; simpl; [done|].
  destruct (decide (k = k0)) as [->|].
  - by rewrite decide_False.
  - simpl. by rewrite IH.
Qed.

Lemma od_delete_get_eq k d : od_wf d → od_get k (od_delete k d) = None.
Proof.
  unfold od_wf, od_keys. induction d as [|[k0 v0] t IH]; simpl; [done|].
  rewrite NoDup_cons. intros [Hk Ht].
  destruct (decide (k = k0)) as [->|Hne].
  - by apply od_get_None.
  - simpl. rewrite decide_False by done. by apply IH.
Qed.

Lemma od_values_elem v d :
  od_wf d → v ∈ od_values d ↔ ∃ k, od_get k d = Some v.
Proof.
  intros Hwf. unfold od_values. rewrite list_elem_of_fmap. split.
  - intros [[k v'] [-> Hin]]. exists k. by apply od_elem_get.
  - intros [k Hg]. exists (k, v). split; [done|]. by apply od_get_Some_elem.
Qed.

Lemma od_wf_snoc k v d : od_wf d → od_get k d = None → od_wf (d ++ [(k, v)]).
Proof.
  unfold od_wf, od_keys. intros Hwf Hg. rewrite fmap_app. apply NoDup_app.
  split_and!; [done| |apply NoDup_singleton].
  intros x Hx Hx'. apply list_elem_of_singleton in Hx'. simpl in Hx'. subst x.
  by apply od_get_None in Hg.
Qed.

Lemma od_wf_drop n d : od_wf d → od_wf (drop n d).
Proof.
  unfold od_wf, od_keys. intros Hwf.
  eapply sublist_NoDup; [exact Hwf|]. apply fmap_sublist, sublist_drop.
Qed.

Lemma od_get_snoc k v d : od_get k (d ++ [(k, v)]) = Some v ∨ is_Some (od_get k d).
Proof.
  induction d as [|[k' v'] t IH]; simpl.
  - left. by rewrite decide_True.
  - destruct (decide (k = k')); [right; by eexists | done].
Qed.
End OrderedDictFacts.

(** ** Facts about the methods *)

Section CollectionFacts.
Context {K future : Type} `{EqDecision K} `{EqDecision future}.
Implicit Types (k : K) (f : future) (self : FutureCollection K future).
Implicit Types (d : odict K future) (N : Z).

Lemma evict_while_nonneg N d :
  0 ≤ N →
  evict_while N d = (Return (), drop (length d - Z.to_nat N) d).
Proof.
  intros HN. induction d as [|kv t IH]; cbn [evict_while].
  - destruct (Z.gtb_spec (Z.of_nat (length (@nil (K * future)))) N) as [Hlt|Hle];
      [simpl in Hlt; lia | done].
  - destruct (Z.gtb_spec (Z.of_nat (length (kv :: t))) N) as [Hlt|Hle].
    + rewrite IH. f_equal.
      replace (length (kv :: t) - Z.to_nat N)%nat
        with (S (length t - Z.to_nat N)) by (simpl in *; lia).
      done.
    + replace (length (kv :: t) - Z.to_nat N)%nat with 0%nat
        by (simpl in *; lia).
      done.
Qed.

Lemma evict_while_neg N d : N < 0 → evict_while N d = (Raise KeyError, []).
Proof.
  intros HN. induction d as [|kv t IH]; cbn [evict_while].
  - destruct (Z.gtb_spec (Z.of_nat (length (@nil (K * future)))) N) as [Hlt|Hle];
      [done | simpl in Hle; lia].
  - destruct (Z.gtb_spec (Z.of_nat (length (kv :: t))) N) as [Hlt|Hle];
      [done | lia].
Qed.

Lemma add_dup k f f' self :
  od_get k (_futures self) = Some f →
  add k f' self = (Raise (ValueError k), self).
Proof.
  intros Hg. unfold add.
  assert (od_mem k (_futures self) = true) as ->; [|done].
  apply od_mem_true. by eexists.
Qed.

Lemma add_fresh_bounded k f self N :
  max_length self = Some N → 0 ≤ N →
  od_get k (_futures self) = None →
  add k f self =
    (Return (),
     mkFC (Some N)
       (drop (length (_futures self) + 1 - Z.to_nat N)
          (_futures self ++ [(k, f)]))).
Proof.
  intros Hm HN Hg. unfold add, _check_size_limit.
  apply od_mem_false in Hg as Hmem. rewrite Hmem. simpl. rewrite Hm.
  rewrite evict_while_nonneg by done.
  rewrite od_setitem_fresh by done. rewrite length_app. done.
Qed.

Lemma add_fresh_unbounded k f self :
  max_length self = None →
  od_get k (_futures self) = None →
  add k f self = (Return (), mkFC None (_futures self ++ [(k, f)])).
Proof.
  intros Hm Hg. unfold add, _check_size_limit.
  apply od_mem_false in Hg as Hmem. rewrite Hmem. simpl. rewrite Hm.
  by rewrite od_setitem_fresh.
Qed.

Lemma pop_present k f self :
  od_get k (_futures self) = Some f →
  pop k self = (Some f, mkFC (max_length self) (od_delete k (_futures self))).
Proof. intros Hg. unfold pop, od_pop. by rewrite Hg. Qed.

Lemma pop_absent k self :
  od_get k (_futures self) = None → pop k self = (None, self).
Proof. intros Hg. unfold pop, od_pop. rewrite Hg. by destruct self. Qed.

Lemma add_max_length k f self :
  max_length (snd (add k f self)) = max_length self.
Proof.
  unfold add, _check_size_limit. destruct (od_mem k (_futures self)); [done|].
  simpl. destruct (max_length self) as [N|]; [|done].
  by destruct (evict_while N _).
Qed.

Lemma pop_max_length k self :
  max_length (snd (pop k self)) = max_length self.
Proof. unfold pop. by destruct (od_pop k (_futures self)). Qed.

(** Every method keeps the keys of the dictionary distinct. *)
Lemma evict_while_wf N d : od_wf d → od_wf (snd (evict_while N d)).
Proof.
  intros Hwf. destruct (decide (0 ≤ N)).
  - rewrite evict_while_nonneg by done. by apply od_wf_drop.
  - rewrite evict_while_neg by lia. apply NoDup_nil_2.
Qed.

Lemma add_wf k f self :
  od_wf (_futures self) → od_wf (_futures (snd (add k f self))).
Proof.
  intros Hwf. unfold add. destruct (od_mem k (_futures self)) eqn:Hmem; [done|].
  apply od_mem_false in Hmem. rewrite od_setitem_fresh by done.
  unfold _check_size_limit. simpl. destruct (max_length self) as [N|]; simpl.
  - pose proof (evict_while_wf N (_futures self ++ [(k, f)])) as Hev.
    destruct (evict_while N _) as [r d']. simpl in *.
    apply Hev. by apply od_wf_snoc.
  - by apply od_wf_snoc.
Qed.

Lemma pop_wf k self :
  od_wf (_futures self) → od_wf (_futures (snd (pop k self))).
Proof.
  intros Hwf. unfold pop, od_pop. destruct (od_get k (_futures self)); simpl;
    [by apply od_delete_wf | done].
Qed.

Lemma step_wf self c : od_wf (_futures self) → od_wf (_futures (step self c)).
Proof. destruct c; simpl; [apply add_wf | apply pop_wf]. Qed.

Lemma step_max_length self c : max_length (step self c) = max_length self.
Proof. destruct c; simpl; [apply add_max_length | apply pop_max_length]. Qed.

Lemma run_snoc self cs c : run self (cs ++ [c]) = step (run self cs) c.
Proof. unfold run. by rewrite fold_left_app. Qed.

Lemma run_wf self cs : od_wf (_futures self) → od_wf (_futures (run self cs)).
Proof.
  revert self. induction cs as [|c cs IH]; intros self Hwf; [done|].
  simpl. by apply IH, step_wf.
Qed.

Lemma run_max_length self cs : max_length (run self cs) = max_length self.
Proof.
  revert self. induction cs as [|c cs IH]; intros self; [done|].
  simpl. by rewrite IH, step_max_length.
Qed.

(** A call never lets the collection grow past a bound it respects. *)
Lemma step_bound self c N :
  max_length self = Some N → 0 ≤ N →
  __len__ self ≤ N → __len__ (step self c) ≤ N.
Proof.
  intros Hm HN Hlen. unfold __len__ in *. destruct c as [k f|k]; simpl.
  - destruct (od_get k (_futures self)) as [f0|] eqn:Hg.
    + by rewrite (add_dup k f0 f self).
    + rewrite (add_fresh_bounded k f self N) by done. simpl.
      rewrite length_drop, length_app. simpl. lia.
  - destruct (od_get k (_futures self)) as [f0|] eqn:Hg.
    + rewrite (pop_present k f0) by done. simpl.
      apply od_delete_length in Hg. lia.
    + by rewrite pop_absent.
Qed.

Lemma run_bound self cs N :
  max_length self = Some N → 0 ≤ N →
  __len__ self ≤ N → __len__ (run self cs) ≤ N.
Proof.
  intros Hm HN. revert self Hm.
  induction cs as [|c cs IH]; intros self Hm Hlen; [done|].
  simpl. apply IH.
  - by rewrite step_max_length.
  - by apply step_bound.
Qed.
End CollectionFacts.

(** ** Eviction order and the bound *)

Section Bound.
Context {K future : Type} `{EqDecision K} `{EqDecision future}.
Implicit Types (k : K) (f : future) (self : FutureCollection K future).
Implicit Types (d : odict K future) (N : Z).

Lemma lastn_snoc {A} (n : nat) (log l : list A) (x : A) :
  l = lastn n log →
  drop (length l + 1 - n) (l ++ [x]) = lastn n (log ++ [x]).
Proof.
  intros ->. unfold lastn.
  rewrite <- (drop_app_le log [x]) by lia.
  rewrite drop_drop. f_equal.
  rewrite length_drop, length_app. simpl. lia.
Qed.

Lemma run_adds_lastn self cs log N :
  max_length self = Some N → 0 ≤ N → Forall is_add cs →
  _futures self = lastn (Z.to_nat N) log →
  _futures (run self cs) = lastn (Z.to_nat N) (log ++ added_ok self cs).
Proof.
  intros Hm HN Hadds. revert self log Hm.
  induction Hadds as [|c cs Hc Hcs IH]; intros self log Hm Hinv.
  - simpl. by rewrite app_nil_r.
  - destruct c as [k f|k]; [|done]. cbn [run fold_left added_ok].
    fold (run (step self (CAdd k f)) cs).
    destruct (od_get k (_futures self)) as [f0|] eqn:Hg.
    + cbn [step]. rewrite (add_dup k f0 f self) by done. simpl.
      by apply IH.
    + cbn [step]. rewrite (add_fresh_bounded k f self N) by done.
      cbn [fst snd]. rewrite app_assoc. apply IH; [done|].
      cbn [_futures]. by apply lastn_snoc.
Qed.

(** C1, as amended. For a collection made with [max_length = N], [0 ≤ N],
    and every sequence of calls to [add] and [pop]: after each call the
    length is at most [N]; when the calls are all to [add], the entries
    kept are exactly the last [N] of those added, in order; and an [add]
    of a new key puts the entry last and then drops entries from the
    front, the oldest, exactly as many as the length exceeds [N] by, so
    that the length afterwards is the smaller of the length plus one and
    [N]. *)
Theorem bound_maintenance N (cs : list (call K future)) :
  0 ≤ N →
  (∀ i : nat, __len__ (run (__init__ (Some N)) (take i cs)) ≤ N)
  ∧ (Forall is_add cs →
     _futures (run (__init__ (Some N)) cs)
     = lastn (Z.to_nat N) (added_ok (__init__ (Some N)) cs))
  ∧ (∀ k f,
       od_get k (_futures (run (__init__ (Some N)) cs)) = None →
       add k f (run (__init__ (Some N)) cs)
       = (Return (),
          mkFC (Some N)
            (drop (Z.to_nat (__len__ (run (__init__ (Some N)) cs) + 1 - N))
               (_futures (run (__init__ (Some N)) cs) ++ [(k, f)])))
       ∧ __len__ (snd (add k f (run (__init__ (Some N)) cs)))
         = Z.min (__len__ (run (__init__ (Some N)) cs) + 1) N).
Proof.
  intros HN. split_and!.
  - intros i. apply run_bound; [done..|]. unfold __len__. simpl. lia.
  - intros Hadds.
    by rewrite (run_adds_lastn (__init__ (Some N)) cs [] N).
  - intros k f Hg.
    assert (max_length (run (__init__ (Some N)) cs) = Some N) as Hm
      by by rewrite run_max_length.
    rewrite (add_fresh_bounded k f _ N) by done. unfold __len__.
    split.
    + do 3 f_equal. lia.
    + cbn [snd _futures]. rewrite length_drop, length_app. simpl. lia.
Qed.

(** C5. With [max_length = 0], an [add] of a new key drops the entry it
    has just put in, and the collection is empty afterwards. For every
    bound [N], [0 ≤ N], whatever the length is when [add] is called (the
    bound may have been lowered since), one [add] drops from the front
    all the entries in excess of [N], which can be more than one. *)
Theorem add_evicts_excess self N k f :
  max_length self = Some N → 0 ≤ N →
  od_get k (_futures self) = None →
  fst (add k f self) = Return ()
  ∧ _futures (snd (add k f self))
    = drop (Z.to_nat (__len__ self + 1 - N)) (_futures self ++ [(k, f)])
  ∧ __len__ (snd (add k f self)) = Z.min (__len__ self + 1) N
  ∧ (N = 0 → _futures (snd (add k f self)) = [] ∧ __len__ (snd (add k f self)) = 0).
Proof.
  intros Hm HN Hg. rewrite (add_fresh_bounded k f self N) by done.
  unfold __len__. cbn [fst snd _futures]. split_and!.
  - done.
  - f_equal. lia.
  - rewrite length_drop, length_app. simpl. lia.
  - intros ->. simpl. rewrite Nat.sub_0_r.
    rewrite drop_ge by (rewrite length_app; simpl; lia). done.
Qed.

Lemma run_adds_unbounded self (es : list (K * future)) :
  max_length self = None →
  NoDup (od_keys (_futures self ++ es)) →
  run self (map (λ e, CAdd e.1 e.2) es) = mkFC None (_futures self ++ es).
Proof.
  revert self. induction es as [|[k f] es IH]; intros self Hm Hnd.
  - simpl. rewrite app_nil_r. destruct self. simpl in *. by subst.
  - cbn [map run fold_left step fst snd].
    fold (run (snd (add k f self)) (map (λ e, CAdd e.1 e.2) es)).
    assert (od_get k (_futures self) = None) as Hg.
    { apply od_get_None. unfold od_keys in *. rewrite fmap_app in Hnd.
      apply NoDup_app in Hnd as (_ & Hdisj & _). intros Hin.
      apply (Hdisj k Hin). simpl. apply elem_of_cons. by left. }
    rewrite add_fresh_unbounded by done. cbn [snd].
    rewrite IH; cbn [max_length _futures]; [|done|].
    + by rewrite <- app_assoc.
    + by rewrite <- app_assoc.
Qed.

(** C8. With [max_length = None], no [add] drops anything: after [add]
    is called with [n] entries of distinct keys on a new collection, all
    [n] are there, in order, whatever [n] is. *)
Theorem unbounded_never_evicts (es : list (K * future)) :
  NoDup (od_keys es) →
  _futures (run (__init__ None) (map (λ e, CAdd e.1 e.2) es)) = es
  ∧ __len__ (run (__init__ None) (map (λ e, CAdd e.1 e.2) es))
    = Z.of_nat (length es).
Proof.
  intros Hnd. rewrite run_adds_unbounded by done. done.
Qed.
End Bound.

(** ** Keys, present and absent *)

Section Keys.
Context {K future world : Type} `{EqDecision K} `{EqDecision future}.
Variable getattr : world → future → string → option (member K world).
Implicit Types (k : K) (f : future) (self : FutureCollection K future).
Implicit Types (d : odict K future) (w : world) (attr : string).

Lemma od_get_None_sublist k d d' :
  d' `sublist_of` d → od_get k d = None → od_get k d' = None.
Proof.
  intros Hsub Hg. apply od_get_None. apply od_get_None in Hg.
  intros Hin. apply Hg. unfold od_keys in *.
  eapply elem_of_sublist; [exact Hin|]. by apply fmap_sublist.
Qed.

Lemma evict_while_sublist (N : Z) d : snd (evict_while N d) `sublist_of` d.
Proof.
  destruct (decide (0 ≤ N)).
  - rewrite evict_while_nonneg by done. apply sublist_drop.
  - rewrite evict_while_neg by lia. apply sublist_nil_l.
Qed.

Lemma add_sublist k f self :
  _futures (snd (add k f self)) `sublist_of` _futures self ++ [(k, f)].
Proof.
  unfold add. destruct (od_mem k (_futures self)) eqn:Hmem.
  - simpl. by apply sublist_inserts_r.
  - apply od_mem_false in Hmem. rewrite od_setitem_fresh by done.
    unfold _check_size_limit. simpl. destruct (max_length self) as [N|]; [|done].
    pose proof (evict_while_sublist N (_futures self ++ [(k, f)])) as Hev.
    by destruct (evict_while N _).
Qed.

(** A key stays absent through every call other than an [add] of it. *)
Lemma step_absent k self c :
  (∀ f, c ≠ CAdd k f) →
  od_get k (_futures self) = None → od_get k (_futures (step self c)) = None.
Proof.
  intros Hc Hg. destruct c as [k' f'|k']; simpl.
  - eapply od_get_None_sublist; [apply add_sublist|].
    apply od_get_None. apply od_get_None in Hg. unfold od_keys in *.
    rewrite fmap_app. simpl. rewrite elem_of_app, list_elem_of_singleton.
    intros [Hin| ->]; [done|]. by apply (Hc f').
  - eapply od_get_None_sublist; [|exact Hg].
    unfold pop, od_pop. destruct (od_get k' (_futures self)); simpl;
      [apply od_delete_sublist | done].
Qed.

Lemma run_absent k self cs :
  (∀ f, CAdd k f ∉ cs) →
  od_get k (_futures self) = None → od_get k (_futures (run self cs)) = None.
Proof.
  revert self. induction cs as [|c cs IH]; intros self Hcs Hg; [done|].
  simpl. apply IH.
  - intros f Hin. apply (Hcs f). apply elem_of_cons. by right.
  - apply step_absent; [|done]. intros f ->. apply (Hcs f).
    apply elem_of_cons. by left.
Qed.

Lemma getattr_absent self attr k args kwargs w :
  od_get k (_futures self) = None →
  __getattr__ getattr self attr k args kwargs w = (Return PyNone, w).
Proof.
  intros Hg. unfold __getattr__. apply od_mem_false in Hg. by rewrite Hg.
Qed.

Lemma getattr_present self attr k f args kwargs w :
  od_get k (_futures self) = Some f →
  __getattr__ getattr self attr k args kwargs w
  = match getattr w f attr with
    | None => (Raise (AttributeError attr), w)
    | Some (Callable future_attr) => future_attr args kwargs w
    | Some (Plain future_attr) => (Return future_attr, w)
    end.
Proof.
  intros Hg. unfold __getattr__.
  assert (od_mem k (_futures self) = true) as ->
    by (apply od_mem_true; by eexists).
  simpl. by rewrite Hg.
Qed.

(** C2. When [k] is in the collection with the future [f], [add k f']
    raises [ValueError] and leaves the collection as it was; a [pop k]
    that follows returns [f]. *)
Theorem add_duplicate_key k f f' self :
  od_get k (_futures self) = Some f →
  add k f' self = (Raise (ValueError k), self)
  ∧ od_get k (_futures (snd (add k f' self))) = Some f
  ∧ fst (pop k (snd (add k f' self))) = Some f.
Proof.
  intros Hg. rewrite (add_dup k f f' self) by done. simpl.
  split_and!; [done..|]. by rewrite (pop_present k f).
Qed.

(** C3. For a key [k] that is not in the collection, [pop k] returns
    [None] and changes nothing, and the proxy of every attribute name,
    with every argument list, returns [None] and raises nothing. *)
Theorem absent_key_safe k self :
  od_get k (_futures self) = None →
  pop k self = (None, self)
  ∧ ∀ attr args kwargs w,
      __getattr__ getattr self attr k args kwargs w = (Return PyNone, w).
Proof.
  intros Hg. split; [by apply pop_absent|].
  intros. by apply getattr_absent.
Qed.

(** C4. For a key [k] in the collection, when [getattr] finds no member
    of the name [attr] on the stored future, the proxy raises
    [AttributeError]. *)
Theorem unknown_member_raises k f self attr args kwargs w :
  od_get k (_futures self) = Some f →
  getattr w f attr = None →
  __getattr__ getattr self attr k args kwargs w
  = (Raise (AttributeError attr), w).
Proof.
  intros Hg Hattr. rewrite (getattr_present self attr k f) by done.
  by rewrite Hattr.
Qed.

(** C6. When [k] is in the collection with the future [f], [pop k]
    returns [f] and the length goes down by one; from then on, through
    every sequence of calls in which [k] is not added again, [pop k] and
    the proxy of every attribute called with [k] return [None]. *)
Theorem pop_removes k f self :
  od_wf (_futures self) →
  od_get k (_futures self) = Some f →
  fst (pop k self) = Some f
  ∧ __len__ (snd (pop k self)) = __len__ self - 1
  ∧ ∀ cs : list (call K future),
      (∀ f', CAdd k f' ∉ cs) →
      fst (pop k (run (snd (pop k self)) cs)) = None
      ∧ ∀ attr args kwargs w,
          __getattr__ getattr (run (snd (pop k self)) cs) attr k args kwargs w
          = (Return PyNone, w).
Proof.
  intros Hwf Hg. rewrite (pop_present k f) by done. cbn [fst snd].
  split_and!.
  - done.
  - unfold __len__. cbn [_futures]. apply od_delete_length in Hg. lia.
  - intros cs Hcs.
    assert (od_get k (_futures (run
              {| max_length := max_length self;
                 _futures := od_delete k (_futures self) |} cs)) = None)
      as Habs.
    { apply run_absent; [done|]. cbn [_futures]. by apply od_delete_get_eq. }
    split.
    + by rewrite pop_absent.
    + intros. by apply getattr_absent.
Qed.

(** C7. For a key [k] in the collection, the proxy resolves the name on
    the stored future: a callable member is called with the arguments
    given, and what it returns or raises, and the world it leaves, are
    those of the proxy; a member that is not callable is returned as it
    is. *)
Theorem getattr_delegates k f self attr args kwargs w :
  od_get k (_futures self) = Some f →
  (∀ future_attr,
     getattr w f attr = Some (Callable future_attr) →
     __getattr__ getattr self attr k args kwargs w = future_attr args kwargs w)
  ∧ (∀ future_attr,
       getattr w f attr = Some (Plain future_attr) →
       __getattr__ getattr self attr k args kwargs w = (Return future_attr, w)).
Proof.
  intros Hg. rewrite (getattr_present self attr k f) by done.
  split; intros future_attr ->; done.
Qed.

(** C10. The proxy looks for the key before it resolves the name: for a
    key that is not in the collection it returns [None] for every
    attribute name, whatever [getattr] would find or not find under that
    name, and whenever it raises, [AttributeError] included, the key is
    in the collection. *)
Theorem absent_key_checked_first self attr k args kwargs w :
  (od_get k (_futures self) = None →
   __getattr__ getattr self attr k args kwargs w = (Return PyNone, w))
  ∧ (∀ e,
       fst (__getattr__ getattr self attr k args kwargs w) = Raise e →
       is_Some (od_get k (_futures self))).
Proof.
  split.
  - intros Hg. by apply getattr_absent.
  - intros e Hr. destruct (od_get k (_futures self)) eqn:Hg; [by eexists|].
    by rewrite getattr_absent in Hr.
Qed.

(** C9, as amended. [__contains__] looks for the future among the stored
    values, by equality of futures and not by key: on a collection with
    distinct keys it answers true exactly when some key holds the
    future. It is true right after an [add] of the future under a new
    key when the bound is [None] or at least one, so that the new entry
    is not dropped; it is false right after [pop k] when [k] held the
    future and no other key holds it. *)
Theorem contains_add_pop k f self :
  od_wf (_futures self) →
  (__contains__ self f = true ↔ ∃ k', od_get k' (_futures self) = Some f)
  ∧ (od_get k (_futures self) = None →
     (max_length self = None ∨ ∃ N, max_length self = Some N ∧ 1 ≤ N) →
     __contains__ (snd (add k f self)) f = true)
  ∧ (od_get k (_futures self) = Some f →
     (∀ k', k' ≠ k → od_get k' (_futures self) ≠ Some f) →
     __contains__ (snd (pop k self)) f = false).
Proof.
  intros Hwf. unfold __contains__. split_and!.
  - rewrite bool_decide_eq_true. by apply od_values_elem.
  - intros Hg Hmax. apply bool_decide_eq_true. unfold od_values.
    apply list_elem_of_fmap. exists (k, f). split; [done|].
    destruct Hmax as [Hm|(N & Hm & HN)].
    + rewrite add_fresh_unbounded by done. simpl.
      apply elem_of_app. right. by apply list_elem_of_singleton.
    + rewrite (add_fresh_bounded k f self N) by (done || lia). simpl.
      rewrite <- (take_drop (length (_futures self)) (_futures self ++ [(k, f)])) at 1.
      rewrite take_app_length, drop_app_length.
      rewrite drop_app_le by lia. apply elem_of_app. right.
      by apply list_elem_of_singleton.
  - intros Hg Hother. apply bool_decide_eq_false.
    rewrite (pop_present k f) by done. cbn [snd _futures].
    rewrite od_values_elem by by apply od_delete_wf.
    intros [k' Hg']. destruct (decide (k' = k)) as [->|Hne].
    + by rewrite od_delete_get_eq in Hg'.
    + rewrite od_delete_get_ne in Hg' by done. by apply (Hother k').
Qed.
End Keys.

(** ** The theorems on concrete calls *)

Section Concrete.
Import Demo.

Lemma demo_wf_ab : od_wf (_futures (fc (Some 2) [("a", 0%nat); ("b", 1%nat)])).
Proof.
  unfold od_wf, od_keys. simpl.
  apply (bool_decide_unpack (NoDup ["a"; "b"])). vm_compute. exact I.
Defined.

(** With a bound of 2, the third [add] drops ["a"]. *)
Lemma bound_maintenance_witness :
  0 ≤ 2
  ∧ __len__ (run (__init__ (Some 2)) (take 3 adds3)) ≤ 2
  ∧ _futures (run (__init__ (Some 2)) adds3) = [("b", 1%nat); ("c", 2%nat)]
  ∧ add "d" 3%nat (run (__init__ (Some 2)) adds3)
    = (Return (), fc (Some 2) [("c", 2%nat); ("d", 3%nat)]).
Proof.
  assert (0 ≤ 2) as H02 by lia.
  pose proof (bound_maintenance 2 adds3 H02) as (Hlen & Hkept & Hadd).
  split_and!.
  - exact H02.
  - exact (Hlen 3%nat).
  - rewrite Hkept; [reflexivity|]. unfold adds3. repeat constructor.
  - destruct (Hadd "d" 3%nat) as [Heq _]; [reflexivity|].
    rewrite Heq. reflexivity.
Defined.

(** With pops between the adds the kept keys are not the last [N] of
    the keys added and not popped, on either reading: with a bound of 3,
    the fourth [add] drops ["a"], which was never popped, and after
    ["c"] and ["e"] are popped the collection holds ["b"] and ["d"]. *)
Lemma retained_keys_counterexample :
  od_keys (_futures (run (__init__ (Some 3)) adds_pops)) = ["b"; "d"]
  ∧ spec_retained_keys 3 adds_pops = ["a"; "b"; "d"]
  ∧ spec_retained_keys_alt 3 adds_pops = ["d"]
  ∧ od_keys (_futures (run (__init__ (Some 3)) adds_pops))
    ≠ spec_retained_keys 3 adds_pops
  ∧ od_keys (_futures (run (__init__ (Some 3)) adds_pops))
    ≠ spec_retained_keys_alt 3 adds_pops.
Proof. split_and!; vm_compute; (reflexivity || discriminate). Qed.

Lemma add_duplicate_key_witness :
  od_get "a" (_futures (fc None [("a", 0%nat)])) = Some 0%nat
  ∧ add "a" 1%nat (fc None [("a", 0%nat)])
    = (Raise (ValueError "a"), fc None [("a", 0%nat)])
  ∧ fst (pop "a" (snd (add "a" 1%nat (fc None [("a", 0%nat)])))) = Some 0%nat.
Proof.
  assert (od_get "a" (_futures (fc None [("a", 0%nat)])) = Some 0%nat) as Hg
    by reflexivity.
  pose proof (add_duplicate_key "a" 0%nat 1%nat _ Hg) as (Hadd & _ & Hpop).
  split_and!; [exact Hg | exact Hadd | exact Hpop].
Defined.

Lemma absent_key_safe_witness :
  od_get "z" (_futures (fc (Some 2) [("a", 0%nat)])) = None
  ∧ pop "z" (fc (Some 2) [("a", 0%nat)]) = (None, fc (Some 2) [("a", 0%nat)])
  ∧ __getattr__ getattr (fc (Some 2) [("a", 0%nat)]) "result" "z" [] [] w0
    = (Return PyNone, w0).
Proof.
  assert (od_get "z" (_futures (fc (Some 2) [("a", 0%nat)])) = None) as Hg
    by reflexivity.
  pose proof (absent_key_safe getattr "z" _ Hg) as [Hpop Hproxy].
  split_and!; [exact Hg | exact Hpop | exact (Hproxy "result" [] [] w0)].
Defined.

Lemma unknown_member_raises_witness :
  od_get "a" (_futures (fc (Some 2) [("a", 0%nat)])) = Some 0%nat
  ∧ getattr w0 0%nat "unknownOp" = None
  ∧ __getattr__ getattr (fc (Some 2) [("a", 0%nat)]) "unknownOp" "a" [] [] w0
    = (Raise (AttributeError "unknownOp"), w0).
Proof.
  split_and!; [reflexivity | reflexivity |].
  apply (unknown_member_raises getattr "a" 0%nat); reflexivity.
Defined.

(** The bound was lowered to 0 while one entry was stored: the [add]
    drops two entries, the old one and the one it has just put in. *)
Lemma add_evicts_excess_witness :
  max_length (fc (Some 0) [("a", 0%nat)]) = Some 0
  ∧ 0 ≤ 0
  ∧ od_get "b" (_futures (fc (Some 0) [("a", 0%nat)])) = None
  ∧ _futures (snd (add "b" 1%nat (fc (Some 0) [("a", 0%nat)])))
    = drop 2 [("a", 0%nat); ("b", 1%nat)]
  ∧ __len__ (snd (add "b" 1%nat (fc (Some 0) [("a", 0%nat)]))) = 0.
Proof.
  assert (0 ≤ 0) as H00 by lia.
  pose proof (add_evicts_excess (fc (Some 0) [("a", 0%nat)]) 0 "b" 1%nat
                eq_refl H00 eq_refl) as (_ & Hd & Hlen & _).
  split_and!; [reflexivity | exact H00 | reflexivity | exact Hd | exact Hlen].
Defined.

Lemma pop_removes_witness :
  od_wf (_futures (fc (Some 2) [("a", 0%nat); ("b", 1%nat)]))
  ∧ od_get "b" (_futures (fc (Some 2) [("a", 0%nat); ("b", 1%nat)])) = Some 1%nat
  ∧ fst (pop "b" (fc (Some 2) [("a", 0%nat); ("b", 1%nat)])) = Some 1%nat
  ∧ __len__ (snd (pop "b" (fc (Some 2) [("a", 0%nat); ("b", 1%nat)]))) = 2 - 1
  ∧ fst (pop "b" (run (snd (pop "b" (fc (Some 2) [("a", 0%nat); ("b", 1%nat)])))
                    [CAdd "c" 2%nat; CPop "a"])) = None.
Proof.
  pose proof (pop_removes getattr "b" 1%nat _ demo_wf_ab eq_refl)
    as (Hpop & Hlen & Hlater).
  split_and!; [exact demo_wf_ab | reflexivity | exact Hpop | exact Hlen |].
  apply Hlater. intros f' Hin.
  apply elem_of_cons in Hin as [Heq|Hin]; [discriminate|].
  apply elem_of_cons in Hin as [Heq|Hin]; [discriminate|].
  by apply elem_of_nil in Hin.
Defined.

(** ["result"] on a finished future is called and gives its value;
    ["_state"] is not callable and is returned as it is. *)
Lemma getattr_delegates_witness :
  od_get "b" (_futures (fc (Some 2) [("a", 0%nat); ("b", 1%nat)])) = Some 1%nat
  ∧ __getattr__ getattr (fc (Some 2) [("a", 0%nat); ("b", 1%nat)])
      "result" "b" [] [] w0 = (Return (PyInt 42), w0)
  ∧ __getattr__ getattr (fc (Some 2) [("a", 0%nat); ("b", 1%nat)])
      "_state" "b" [] [] w0 = (Return (PyStr "FINISHED"), w0).
Proof.
  split_and!; [reflexivity | |].
  - pose proof (getattr_delegates getattr "b" 1%nat
                  (fc (Some 2) [("a", 0%nat); ("b", 1%nat)])
                  "result" [] [] w0 eq_refl) as [Hcall _].
    rewrite (Hcall _ eq_refl). reflexivity.
  - pose proof (getattr_delegates getattr "b" 1%nat
                  (fc (Some 2) [("a", 0%nat); ("b", 1%nat)])
                  "_state" [] [] w0 eq_refl) as [_ Hplain].
    exact (Hplain _ eq_refl).
Defined.

Lemma unbounded_never_evicts_witness :
  NoDup (od_keys [("a", 0%nat); ("b", 1%nat); ("c", 2%nat)])
  ∧ _futures (run (__init__ None) adds3)
    = [("a", 0%nat); ("b", 1%nat); ("c", 2%nat)]
  ∧ __len__ (run (__init__ None) adds3) = 3.
Proof.
  assert (NoDup (od_keys [("a", 0%nat); ("b", 1%nat); ("c", 2%nat)])) as Hnd.
  { unfold od_keys. simpl.
    apply (bool_decide_unpack (NoDup ["a"; "b"; "c"])). vm_compute. exact I. }
  split; [exact Hnd|].
  exact (unbounded_never_evicts [("a", 0%nat); ("b", 1%nat); ("c", 2%nat)] Hnd).
Defined.

(** The same future added under ["a"] and ["b"]: [pop "b"] returns it,
    and [__contains__] still finds it, under ["a"]. *)
Lemma contains_after_pop_counterexample :
  fst (add "b" 1%nat (run (__init__ default_max_length) [CAdd "a" 1%nat]))
  = Return ()
  ∧ fst (pop "b" (run (__init__ default_max_length) same_future_twice))
    = Some 1%nat
  ∧ __contains__
      (snd (pop "b" (run (__init__ default_max_length) same_future_twice)))
      1%nat
    ≠ false.
Proof. split_and!; vm_compute; (reflexivity || discriminate). Qed.

Lemma contains_add_pop_witness :
  od_wf (_futures (fc (Some 2) [("a", 0%nat); ("b", 1%nat)]))
  ∧ __contains__ (snd (add "c" 2%nat (fc (Some 2) [("a", 0%nat); ("b", 1%nat)])))
      2%nat = true
  ∧ __contains__ (snd (pop "b" (fc (Some 2) [("a", 0%nat); ("b", 1%nat)])))
      1%nat = false.
Proof.
  split_and!; [exact demo_wf_ab | |].
  - pose proof (contains_add_pop "c" 2%nat _ demo_wf_ab) as (_ & Hadd & _).
    apply Hadd; [reflexivity|]. right. exists 2. split; [reflexivity | lia].
  - pose proof (contains_add_pop "b" 1%nat _ demo_wf_ab) as (_ & _ & Hpop).
    apply Hpop; [reflexivity|]. intros k' Hne. simpl.
    destruct (decide (k' = "a")); [discriminate|].
    destruct (decide (k' = "b")); [done | discriminate].
Defined.
(** For a key that is absent an unknown name gives [None]; for a key that
    is present it raises [AttributeError]. *)
Lemma absent_key_checked_first_witness :
  __getattr__ getattr (fc (Some 2) [("a", 0%nat)]) "unknownOp" "z" [] [] w0
  = (Return PyNone, w0)
  ∧ is_Some (od_get "a" (_futures (fc (Some 2) [("a", 0%nat)]))).
Proof.
  split.
  - apply (absent_key_checked_first getattr). reflexivity.
  - pose proof (absent_key_checked_first getattr (fc (Some 2) [("a", 0%nat)])
                  "unknownOp" "a" [] [] w0) as [_ Hraise].
    apply (Hraise (AttributeError "unknownOp")). reflexivity.
Defined.
End Concrete.

(** ** Lookups after eviction *)

Section Lookups.
Context {K future : Type} `{EqDecision K} `{EqDecision future}.
Implicit Types (k : K) (f : future) (self : FutureCollection K future).
Implicit Types (d : odict K future) (N : Z).

Lemma od_get_drop k (n : nat) d :
  od_wf d →
  od_get k (drop n d)
  = if decide (k ∈ od_keys (take n d)) then None else od_get k d.
Proof.
  unfold od_wf, od_keys. revert n.
  induction d as [|[k0 v0] t IH]; intros n Hwf.
  - rewrite drop_nil. by destruct (decide _).
  - destruct n as [|n].
    { rewrite drop_0, take_0.
      destruct (decide _) as [Hin|]; [by apply elem_of_nil in Hin | done]. }
    cbn [drop take fmap list_fmap od_get]. simpl in Hwf.
    apply NoDup_cons in Hwf as [Hk0 Ht]. rewrite IH by done.
    destruct (decide (k = k0)) as [->|Hne].
    + assert (od_get k0 t = None) as -> by by apply od_get_None.
      destruct (decide (k0 ∈ (take n t).*1));
        destruct (decide (k0 ∈ _ :: _)) as [_|Hnin]; try done;
        exfalso; apply Hnin; apply elem_of_cons; by left.
    + destruct (decide (k ∈ (take n t).*1)) as [Hin|Hnin];
        destruct (decide (k ∈ _ :: _)) as [Hin'|Hnin']; try done.
      * exfalso. apply Hnin'. apply elem_of_cons. by right.
      * exfalso. apply elem_of_cons in Hin' as [?|?]; done.
Qed.

Lemma od_get_snoc_fresh k' k f d :
  od_get k d = None →
  od_get k' (d ++ [(k, f)])
  = if decide (k' = k) then Some f else od_get k' d.
Proof.
  induction d as [|[k0 v0] t IH]; simpl; intros Hg.
  - by destruct (decide (k' = k)).
  - destruct (decide (k = k0)) as [->|Hne]; [done|].
    destruct (decide (k' = k0)) as [->|Hne'].
    + by rewrite decide_False by done.
    + by apply IH.
Qed.

Lemma od_delete_snoc_fresh k f d :
  od_get k d = None → od_delete k (d ++ [(k, f)]) = d.
Proof.
  induction d as [|[k0 v0] t IH]; simpl; intros Hg.
  - by rewrite decide_True.
  - destruct (decide (k = k0)); [done|]. by rewrite IH.
Qed.

Lemma od_get_sublist k f d d' :
  od_wf d → d' `sublist_of` d → od_get k d = Some f →
  od_get k d' = Some f ∨ od_get k d' = None.
Proof.
  intros Hwf Hsub Hg. destruct (od_get k d') as [f'|] eqn:Hg'; [|by right].
  left. apply od_get_Some_elem in Hg'.
  assert ((k, f') ∈ d) as Hin by by eapply elem_of_sublist.
  apply (od_elem_get _ _ _ Hwf) in Hin. congruence.
Qed.

Lemma add_fresh_neg k f self N :
  max_length self = Some N → N < 0 →
  od_get k (_futures self) = None →
  add k f self = (Raise KeyError, mkFC (Some N) []).
Proof.
  intros Hm HN Hg. unfold add, _check_size_limit.
  apply od_mem_false in Hg. rewrite Hg. simpl. rewrite Hm.
  by rewrite evict_while_neg.
Qed.

Lemma pop_fst k self : fst (pop k self) = od_get k (_futures self).
Proof. unfold pop, od_pop. by destruct (od_get k (_futures self)). Qed.

(** X1. With a negative [max_length], an [add] of a new key empties the
    dictionary and then raises [KeyError], from [popitem] on the empty
    dictionary: every stored future is lost, the new one included. *)
Theorem add_negative_bound k f self N :
  max_length self = Some N → N < 0 →
  od_get k (_futures self) = None →
  add k f self = (Raise KeyError, mkFC (Some N) [])
  ∧ __len__ (snd (add k f self)) = 0
  ∧ ∀ f', __contains__ (snd (add k f self)) f' = false.
Proof.
  intros Hm HN Hg. rewrite (add_fresh_neg k f self N) by done.
  split_and!; [done..|].
  intros f'. apply bool_decide_eq_false. simpl. apply not_elem_of_nil.
Qed.

(** X2. With [max_length = N], [0 ≤ N], [_check_size_limit] raises
    nothing and keeps the last [N] entries; it changes nothing when the
    length is at most [N], and a second call changes nothing more. *)
Theorem check_size_limit_bounded self N :
  max_length self = Some N → 0 ≤ N →
  _check_size_limit self
  = (Return (), mkFC (Some N) (lastn (Z.to_nat N) (_futures self)))
  ∧ __len__ (snd (_check_size_limit self)) = Z.min (__len__ self) N
  ∧ (__len__ self ≤ N → _check_size_limit self = (Return (), self))
  ∧ _check_size_limit (snd (_check_size_limit self))
    = (Return (), snd (_check_size_limit self)).
Proof.
  intros Hm HN.
  assert (_check_size_limit self
          = (Return (), mkFC (Some N) (lastn (Z.to_nat N) (_futures self))))
    as Hchk.
  { unfold _check_size_limit. by rewrite Hm, evict_while_nonneg by done. }
  rewrite Hchk. unfold __len__, lastn. cbn [snd _futures]. split_and!.
  - done.
  - rewrite length_drop. lia.
  - intros Hlen. destruct self as [m d]. simpl in *. subst m.
    replace (length d - Z.to_nat N)%nat with 0%nat by lia. done.
  - unfold _check_size_limit. cbn [max_length _futures].
    rewrite evict_while_nonneg by done. rewrite length_drop.
    replace (length (_futures self) - (length (_futures self) - Z.to_nat N)
             - Z.to_nat N)%nat with 0%nat by lia.
    done.
Qed.

(** X3. When there is room for one more entry ([max_length] is [None],
    or the length is below it), an [add] of a new key followed by a
    [pop] of that key returns the future added and leaves the collection
    exactly as it was before the [add]. *)
Theorem add_pop_roundtrip k f self :
  od_get k (_futures self) = None →
  (max_length self = None
   ∨ ∃ N, max_length self = Some N ∧ __len__ self < N) →
  fst (add k f self) = Return ()
  ∧ pop k (snd (add k f self)) = (Some f, self).
Proof.
  intros Hg Hroom.
  assert (add k f self = (Return (), mkFC (max_length self) (_futures self ++ [(k, f)])))
    as Hadd.
  { destruct Hroom as [Hm|(N & Hm & Hlen)].
    - rewrite add_fresh_unbounded by done. by rewrite Hm.
    - unfold __len__ in Hlen.
      rewrite (add_fresh_bounded k f self N) by (done || lia). rewrite Hm.
      replace (length (_futures self) + 1 - Z.to_nat N)%nat with 0%nat by lia.
      done. }
  rewrite Hadd. split; [done|]. cbn [snd].
  rewrite (pop_present k f).
  - cbn [max_length _futures]. rewrite od_delete_snoc_fresh by done.
    by destruct self.
  - cbn [_futures]. rewrite od_get_snoc_fresh by done. by rewrite decide_True.
Qed.

(** X4. What every key maps to after an [add] of a new key under a bound
    [N], [0 ≤ N]: the keys of the entries dropped from the front are
    gone, the new key maps to the future added unless it was itself
    dropped, and every other key maps to what it mapped to before. *)
Theorem add_lookup k f self N k' :
  od_wf (_futures self) →
  max_length self = Some N → 0 ≤ N →
  od_get k (_futures self) = None →
  od_get k' (_futures (snd (add k f self)))
  = if decide (k' ∈ od_keys (take (Z.to_nat (__len__ self + 1 - N))
                               (_futures self ++ [(k, f)])))
    then None
    else if decide (k' = k) then Some f else od_get k' (_futures self).
Proof.
  intros Hwf Hm HN Hg. rewrite (add_fresh_bounded k f self N) by done.
  cbn [snd _futures]. unfold __len__.
  replace (Z.to_nat (Z.of_nat (length (_futures self)) + 1 - N))
    with (length (_futures self) + 1 - Z.to_nat N)%nat by lia.
  rewrite od_get_drop by by apply od_wf_snoc.
  by rewrite od_get_snoc_fresh.
Qed.

(** X5. No call changes the future a key maps to: after one call to
    [add] or [pop], whatever its arguments and whether it raises or not,
    a key that was in the collection maps to the same future or is gone. *)
Theorem step_keeps_values self (c : call K future) k f :
  od_wf (_futures self) →
  od_get k (_futures self) = Some f →
  od_get k (_futures (step self c)) = Some f
  ∨ od_get k (_futures (step self c)) = None.
Proof.
  intros Hwf Hg. destruct c as [k' f'|k']; cbn [step].
  - destruct (od_get k' (_futures self)) as [f0|] eqn:Hg'.
    + rewrite (add_dup k' f0 f' self) by done. by left.
    + eapply (od_get_sublist k f (_futures self ++ [(k', f')])).
      * by apply od_wf_snoc.
      * apply add_sublist.
      * rewrite od_get_snoc_fresh by done.
        destruct (decide (k = k')) as [->|]; [congruence | done].
  - eapply (od_get_sublist k f (_futures self)); [done| |done].
    unfold pop, od_pop. destruct (od_get k' (_futures self)); simpl;
      [apply od_delete_sublist | done].
Qed.

(** X6. [pop k] touches the entry of [k] alone: every other key maps to
    what it mapped to before, the entries left keep their order, and
    [max_length] is unchanged. *)
Theorem pop_other_keys k k' self :
  k' ≠ k →
  od_get k' (_futures (snd (pop k self))) = od_get k' (_futures self)
  ∧ _futures (snd (pop k self)) `sublist_of` _futures self
  ∧ max_length (snd (pop k self)) = max_length self.
Proof.
  intros Hne. unfold pop, od_pop.
  destruct (od_get k (_futures self)) as [f|]; cbn [snd _futures max_length].
  - split_and!; [|apply od_delete_sublist|done].
    by apply od_delete_get_ne.
  - done.
Qed.
End Lookups.

(** ** Sequences of calls *)

Section Sequences.
Context {K future : Type} `{EqDecision K} `{EqDecision future}.
Implicit Types (k : K) (f : future) (self : FutureCollection K future).
Implicit Types (d : odict K future) (N : Z) (cs : list (call K future)).
Implicit Types (es : list (K * future)).

Lemma adds_are_adds es : Forall is_add (adds es).
Proof. induction es as [|[k f] es IH]; constructor; done. Qed.

Lemma added_ok_adds self es N :
  max_length self = Some N → 0 ≤ N →
  NoDup (od_keys es) →
  (∀ k, k ∈ od_keys es → od_get k (_futures self) = None) →
  added_ok self (adds es) = es.
Proof.
  intros Hm HN. revert self Hm. unfold od_keys.
  induction es as [|[k f] es IH]; intros self Hm Hnd Hfresh; [done|].
  simpl in Hnd. apply NoDup_cons in Hnd as [Hk Hnd].
  assert (od_get k (_futures self) = None) as Hg.
  { apply Hfresh. simpl. apply elem_of_cons. by left. }
  cbn [adds map added_ok step fst snd].
  rewrite (add_fresh_bounded k f self N) by done. cbn [fst snd app].
  f_equal. apply IH; [done..|].
  intros k' Hk'. cbn [_futures].
  eapply od_get_None_sublist; [apply sublist_drop|].
  rewrite od_get_snoc_fresh by done.
  destruct (decide (k' = k)) as [->|]; [done|].
  apply Hfresh. simpl. apply elem_of_cons. by right.
Qed.

(** X7. First in, first out. After [add] is called with entries of
    distinct keys on a new collection of bound [N], [0 ≤ N], a [pop] of
    the key added at position [i] returns its future when [i] is among
    the last [N] positions, and [None] otherwise. *)
Theorem fifo_retrievable N es (i : nat) k f :
  0 ≤ N → NoDup (od_keys es) → es !! i = Some (k, f) →
  fst (pop k (run (__init__ (Some N)) (adds es)))
  = if decide (length es - Z.to_nat N ≤ i)%nat then Some f else None.
Proof.
  intros HN Hnd Hi. rewrite pop_fst.
  rewrite (run_adds_lastn (__init__ (Some N)) (adds es) [] N);
    [|done|done|apply adds_are_adds|done].
  rewrite (added_ok_adds _ es N) by done. cbn [app]. unfold lastn.
  rewrite od_get_drop by done.
  assert (od_get k es = Some f) as ->.
  { apply od_elem_get; [done|]. by eapply list_elem_of_lookup_2. }
  destruct (decide (k ∈ od_keys (take (length es - Z.to_nat N) es)))
    as [Hin|Hnin];
    destruct (decide (length es - Z.to_nat N ≤ i)%nat) as [Hle|Hgt];
    try done; exfalso.
  - unfold od_keys in Hin. apply list_elem_of_fmap in Hin as ([k' f'] & Hk' & Hin).
    simpl in Hk'. subst k'. apply elem_of_take in Hin as (j & Hj & Hlt).
    assert (j = i); [|lia].
    apply (NoDup_lookup (od_keys es) j i k Hnd); unfold od_keys;
      rewrite list_lookup_fmap; [by rewrite Hj | by rewrite Hi].
  - apply Hnin. unfold od_keys. apply list_elem_of_fmap. exists (k, f).
    split; [done|]. apply elem_of_take. exists i. split; [done|lia].
Qed.

Lemma add_len_step k f self :
  __len__ (snd (add k f self))
  ≤ __len__ self
    + Z.of_nat (length (match fst (add k f self) with
                        | Return _ => [(k, f)]
                        | Raise _ => []
                        end)).
Proof.
  unfold __len__. destruct (od_get k (_futures self)) as [f0|] eqn:Hg.
  - rewrite (add_dup k f0 f self) by done. simpl. lia.
  - destruct (max_length self) as [N|] eqn:Hm.
    + destruct (decide (0 ≤ N)).
      * rewrite (add_fresh_bounded k f self N) by done. simpl.
        rewrite length_drop, length_app. simpl. lia.
      * rewrite (add_fresh_neg k f self N) by (done || lia). simpl. lia.
    + rewrite add_fresh_unbounded by done. simpl. rewrite length_app. simpl. lia.
Qed.

Lemma pop_len_step k self :
  __len__ (snd (pop k self))
  = __len__ self
    - Z.of_nat (length (match fst (pop k self) with
                        | Some f => [f]
                        | None => []
                        end)).
Proof.
  unfold __len__. destruct (od_get k (_futures self)) as [f0|] eqn:Hg.
  - rewrite (pop_present k f0) by done. simpl.
    apply od_delete_length in Hg. lia.
  - rewrite pop_absent by done. simpl. lia.
Qed.

(** X8. The length after a sequence of calls is at most the length
    before, plus the number of calls to [add] that returned normally,
    minus the number of calls to [pop] that found their key; with
    [max_length = None] it is exactly that. *)
Theorem len_accounting self cs :
  __len__ (run self cs)
  ≤ __len__ self + Z.of_nat (length (added_ok self cs))
    - Z.of_nat (length (popped_ok self cs))
  ∧ (max_length self = None →
     __len__ (run self cs)
     = __len__ self + Z.of_nat (length (added_ok self cs))
       - Z.of_nat (length (popped_ok self cs))).
Proof.
  split.
  - revert self. induction cs as [|c cs IH]; intros self; [simpl; lia|].
    cbn [run fold_left added_ok popped_ok]. fold (run (step self c) cs).
    specialize (IH (step self c)). rewrite !length_app.
    destruct c as [k f|k]; cbn [step] in *.
    + pose proof (add_len_step k f self) as Hs.
      destruct (fst (add k f self)); simpl in *; lia.
    + pose proof (pop_len_step k self) as Hs.
      destruct (fst (pop k self)); simpl in *; lia.
  - revert self. induction cs as [|c cs IH]; intros self Hm; [simpl; lia|].
    cbn [run fold_left added_ok popped_ok]. fold (run (step self c) cs).
    rewrite IH by by rewrite step_max_length. rewrite !length_app.
    destruct c as [k f|k]; cbn [step].
    + destruct (od_get k (_futures self)) as [f0|] eqn:Hg.
      * rewrite (add_dup k f0 f self) by done. simpl. lia.
      * rewrite add_fresh_unbounded by done. unfold __len__. simpl.
        rewrite length_app. simpl. lia.
    + pose proof (pop_len_step k self) as Hs.
      destruct (fst (pop k self)); simpl in *; lia.
Qed.

Lemma entries_from_adds self cs (e : K * future) :
  e ∈ _futures (run self cs) → e ∈ _futures self ∨ e ∈ added_ok self cs.
Proof.
  revert self. induction cs as [|c cs IH]; intros self Hin; [by left|].
  cbn [run fold_left added_ok] in *. fold (run (step self c) cs) in Hin.
  apply IH in Hin as [Hin|Hin]; [|right; apply elem_of_app; by right].
  destruct c as [k f|k]; cbn [step] in Hin.
  - destruct (od_get k (_futures self)) as [f0|] eqn:Hg.
    { rewrite (add_dup k f0 f self) in Hin by done. by left. }
    assert (e ∈ _futures self ++ [(k, f)]) as Hin'
      by (eapply elem_of_sublist; [exact Hin | apply add_sublist]).
    apply elem_of_app in Hin' as [?|Hnew]; [by left|].
    apply list_elem_of_singleton in Hnew. subst e.
    right. apply elem_of_app. left.
    destruct (max_length self) as [N|] eqn:Hm.
    + destruct (decide (0 ≤ N)).
      * rewrite (add_fresh_bounded k f self N) by done. simpl.
        by apply list_elem_of_singleton.
      * rewrite (add_fresh_neg k f self N) in Hin by (done || lia).
        by apply elem_of_nil in Hin.
    + rewrite add_fresh_unbounded by done. simpl. by apply list_elem_of_singleton.
  - left. eapply elem_of_sublist; [exact Hin|].
    unfold pop, od_pop. destruct (od_get k (_futures self)); simpl;
      [apply od_delete_sublist | done].
Qed.

(** X9. Whatever [max_length] a collection is made with, negative
    included, and whatever calls to [add] and [pop] follow: the keys
    stay pairwise distinct, [max_length] is never changed, and every
    entry stored is one that a call to [add] put there and that returned
    normally, with the future it was given. *)
Theorem reachable_invariant (m : option Z) cs :
  od_wf (_futures (run (__init__ m) cs))
  ∧ max_length (run (__init__ m) cs) = m
  ∧ ∀ k f,
      od_get k (_futures (run (__init__ m) cs)) = Some f →
      (k, f) ∈ added_ok (__init__ m) cs.
Proof.
  split_and!.
  - apply run_wf. apply NoDup_nil_2.
  - by rewrite run_max_length.
  - intros k f Hg. apply od_get_Some_elem in Hg.
    apply entries_from_adds in Hg as [Hin|Hin]; [|done].
    by apply elem_of_nil in Hin.
Qed.
End Sequences.

(** ** The further theorems on concrete calls *)

Section ConcreteSequences.
Import Demo.

(** A bound of -1: the [add] loses the stored future and the new one. *)
Lemma add_negative_bound_witness :
  max_length (fc (Some (-1)) [("a", 0%nat)]) = Some (-1)
  ∧ -1 < 0
  ∧ od_get "b" (_futures (fc (Some (-1)) [("a", 0%nat)])) = None
  ∧ add "b" 1%nat (fc (Some (-1)) [("a", 0%nat)])
    = (Raise KeyError, fc (Some (-1)) []).
Proof.
  assert (-1 < 0) as Hneg by lia.
  pose proof (add_negative_bound "b" 1%nat (fc (Some (-1)) [("a", 0%nat)]) (-1)
                eq_refl Hneg eq_refl) as (Hadd & _).
  split_and!; [reflexivity | exact Hneg | reflexivity | exact Hadd].
Defined.

(** The bound was lowered to 1 with two entries stored. *)
Lemma check_size_limit_bounded_witness :
  max_length (fc (Some 1) [("a", 0%nat); ("b", 1%nat)]) = Some 1
  ∧ 0 ≤ 1
  ∧ _check_size_limit (fc (Some 1) [("a", 0%nat); ("b", 1%nat)])
    = (Return (), fc (Some 1) [("b", 1%nat)]).
Proof.
  assert (0 ≤ 1) as H01 by lia.
  pose proof (check_size_limit_bounded (fc (Some 1) [("a", 0%nat); ("b", 1%nat)]) 1
                eq_refl H01) as (Hchk & _).
  split_and!; [reflexivity | exact H01 | exact Hchk].
Defined.

Lemma add_pop_roundtrip_witness :
  od_get "b" (_futures (fc (Some 2) [("a", 0%nat)])) = None
  ∧ __len__ (fc (Some 2) [("a", 0%nat)]) < 2
  ∧ pop "b" (snd (add "b" 1%nat (fc (Some 2) [("a", 0%nat)])))
    = (Some 1%nat, fc (Some 2) [("a", 0%nat)]).
Proof.
  assert (__len__ (fc (Some 2) [("a", 0%nat)]) < 2) as Hlen
    by (vm_compute; reflexivity).
  assert (od_get "b" (_futures (fc (Some 2) [("a", 0%nat)])) = None) as Hg
    by reflexivity.
  split_and!; [exact Hg | exact Hlen |].
  apply (add_pop_roundtrip "b" 1%nat (fc (Some 2) [("a", 0%nat)]) Hg).
  right. exists 2. split; [reflexivity | exact Hlen].
Defined.

(** At the bound, the [add] of ["c"] drops ["a"] and keeps ["b"]. *)
Lemma add_lookup_witness :
  od_wf (_futures (fc (Some 2) [("a", 0%nat); ("b", 1%nat)]))
  ∧ 0 ≤ 2
  ∧ od_get "a" (_futures (snd (add "c" 2%nat
                                 (fc (Some 2) [("a", 0%nat); ("b", 1%nat)]))))
    = None
  ∧ od_get "b" (_futures (snd (add "c" 2%nat
                                 (fc (Some 2) [("a", 0%nat); ("b", 1%nat)]))))
    = Some 1%nat.
Proof.
  assert (0 ≤ 2) as H02 by lia.
  assert (od_get "c" (_futures (fc (Some 2) [("a", 0%nat); ("b", 1%nat)])) = None)
    as Hg by reflexivity.
  split_and!; [exact demo_wf_ab | exact H02 | |].
  - rewrite (add_lookup "c" 2%nat _ 2 "a" demo_wf_ab eq_refl H02 Hg).
    reflexivity.
  - rewrite (add_lookup "c" 2%nat _ 2 "b" demo_wf_ab eq_refl H02 Hg).
    reflexivity.
Defined.

Lemma step_keeps_values_witness :
  od_wf (_futures (fc (Some 2) [("a", 0%nat); ("b", 1%nat)]))
  ∧ od_get "b" (_futures (fc (Some 2) [("a", 0%nat); ("b", 1%nat)])) = Some 1%nat
  ∧ (od_get "b" (_futures (step (fc (Some 2) [("a", 0%nat); ("b", 1%nat)])
                             (CAdd "c" 2%nat))) = Some 1%nat
     ∨ od_get "b" (_futures (step (fc (Some 2) [("a", 0%nat); ("b", 1%nat)])
                               (CAdd "c" 2%nat))) = None).
Proof.
  assert (od_get "b" (_futures (fc (Some 2) [("a", 0%nat); ("b", 1%nat)]))
          = Some 1%nat) as Hg by reflexivity.
  split_and!; [exact demo_wf_ab | exact Hg |].
  exact (step_keeps_values (fc (Some 2) [("a", 0%nat); ("b", 1%nat)])
           (CAdd "c" 2%nat) "b" 1%nat demo_wf_ab Hg).
Defined.

Lemma pop_other_keys_witness :
  "b" ≠ "a"
  ∧ od_get "b" (_futures (snd (pop "a" (fc (Some 2) [("a", 0%nat); ("b", 1%nat)]))))
    = od_get "b" (_futures (fc (Some 2) [("a", 0%nat); ("b", 1%nat)])).
Proof.
  assert ("b" ≠ "a") as Hne by discriminate.
  pose proof (pop_other_keys "a" "b" (fc (Some 2) [("a", 0%nat); ("b", 1%nat)]) Hne)
    as (Hget & _).
  split; [exact Hne | exact Hget].
Defined.

(** Three adds under a bound of 2: the first key is gone, the last two
    are there. *)
Lemma fifo_retrievable_witness :
  0 ≤ 2
  ∧ NoDup (od_keys [("a", 0%nat); ("b", 1%nat); ("c", 2%nat)])
  ∧ fst (pop "a" (run (__init__ (Some 2))
                    (adds [("a", 0%nat); ("b", 1%nat); ("c", 2%nat)]))) = None
  ∧ fst (pop "b" (run (__init__ (Some 2))
                    (adds [("a", 0%nat); ("b", 1%nat); ("c", 2%nat)]))) = Some 1%nat.
Proof.
  assert (0 ≤ 2) as H02 by lia.
  assert (NoDup (od_keys [("a", 0%nat); ("b", 1%nat); ("c", 2%nat)])) as Hnd.
  { unfold od_keys. simpl.
    apply (bool_decide_unpack (NoDup ["a"; "b"; "c"])). vm_compute. exact I. }
  split_and!; [exact H02 | exact Hnd | |].
  - rewrite (fifo_retrievable 2 _ 0 "a" 0%nat H02 Hnd eq_refl). reflexivity.
  - rewrite (fifo_retrievable 2 _ 1 "b" 1%nat H02 Hnd eq_refl). reflexivity.
Defined.

(** Five adds and two pops that find their key, with no bound: three
    entries are left. *)
Lemma len_accounting_witness :
  max_length (__init__ (K := string) (future := nat) None) = None
  ∧ __len__ (run (__init__ None) adds_pops) = 0 + 5 - 2.
Proof.
  split; [reflexivity|].
  pose proof (len_accounting (__init__ None) adds_pops) as [_ Heq].
  rewrite Heq; reflexivity.
Defined.
End ConcreteSequences.
